(** * The [run] command of the localization CLI

    A shallow embedding of [packages/cli/src/cli/cmd/run/index.ts]: the
    sound notifier [playSound] and the [action] handler that drives
    setup, plan, execute and the optional watch phase inside one
    try/catch, with telemetry and the two ways of leaving the process. *)

From Stdlib Require Import ZArith NArith Lia Ascii.
From stdpp Require Import base option list strings gmap.

(** ** JavaScript values *)

(** The handler receives an untyped options object ([args] is [any]) and
    branches on the truthiness of some of its properties. *)
#[warnings="-register-all"]
Inductive jsval : Type :=
| JUndefined
| JNull
| JBool (b : bool)
| JNum (n : Z)
| JStr (s : string)
| JArr (items : list jsval)
| JObj (props : list (string * jsval)).

(** ToBoolean, on the values above. *)
Definition truthy (v : jsval) : bool :=
  match v with
  | JUndefined | JNull => false
  | JBool b => b
  | JNum n => negb (n =? 0)%Z
  | JStr s => negb (String.eqb s "")
  | JArr _ | JObj _ => true
  end.

(** An object used through its properties: a missing one reads as
    [undefined]. *)
Definition js_object := gmap string jsval.

Definition js_get (o : js_object) (k : string) : jsval :=
  default JUndefined (o !! k).

(** What a thrown value is does not matter to the handler: [catch (error)]
    never looks at it. *)
Definition error := string.

(** ** The sound notifier *)

Inductive sound_type := success | failure.

Definition sound_type_name (t : sound_type) : string :=
  match t with success => "success" | failure => "failure" end.

(** The double quote, which the commands below put around file names. *)
Definition dq : string := String "034"%char EmptyString.

(** A hole of a template literal filled from an array element: an index
    past the end reads [undefined], which prints as the word. *)
Definition template_hole (v : option string) : string :=
  match v with Some s => s | None => "undefined" end.

(** [Array.prototype.join]. *)
Definition join (sep : string) (l : list string) : string := String.concat sep l.

Module Notifier.

Section Command.
(** [path.join] and [__dirname] belong to the host; the command is
    built from them as it stands. *)
Variable path_join : string -> string -> string.
Variable dirname : string.

Definition assetDir : string := path_join dirname "../assets".

Definition soundFiles (type : sound_type) : list string :=
  [ path_join assetDir (sound_type_name type +:+ ".mp3") ].

Definition linux_player (file : string) : string :=
  "mpg123 -q " +:+ dq +:+ file +:+ dq +:+ " 2>/dev/null || aplay "
    +:+ dq +:+ file +:+ dq +:+ " 2>/dev/null".

Definition darwin_player (file : string) : string :=
  "afplay " +:+ dq +:+ file +:+ dq.

Definition other_player (file : string) : string :=
  "aplay " +:+ dq +:+ file +:+ dq +:+ " 2>/dev/null || afplay "
    +:+ dq +:+ file +:+ dq +:+ " 2>/dev/null".

(** The managed sound-player call reads [soundFiles[1]], its fallback
    [soundFiles[0]]. *)
Definition win32_primary (type : sound_type) : option string := soundFiles type !! 1%nat.
Definition win32_fallback (type : sound_type) : option string := soundFiles type !! 0%nat.

Definition win32_command (type : sound_type) : string :=
  "powershell -c " +:+ dq
    +:+ "try { (New-Object Media.SoundPlayer '"
    +:+ template_hole (win32_primary type)
    +:+ "').PlaySync() } catch { Start-Process -FilePath '"
    +:+ template_hole (win32_fallback type)
    +:+ "' -WindowStyle Hidden -Wait }" +:+ dq.

(** The [command] string [playSound] hands to [exec], by platform. *)
Definition command (platform : string) (type : sound_type) : string :=
  if String.eqb platform "linux" then
    join " || " (map linux_player (soundFiles type))
  else if String.eqb platform "darwin" then
    join " || " (map darwin_player (soundFiles type))
  else if String.eqb platform "win32" then
    win32_command type
  else
    join " || " (map other_player (soundFiles type)).
End Command.

(** *** The promise and its two resolvers *)

(** Times are milliseconds on the event loop's clock, counted from the
    call of [playSound]. *)
Inductive promise : Type :=
| Pending
| Fulfilled (at_ms : N)
| Rejected (at_ms : N).

(** [resolve()]: settles a pending promise, does nothing to a settled
    one. *)
Definition resolve (now : N) (p : promise) : promise :=
  match p with
  | Pending => Fulfilled now
  | _ => p
  end.

(** A callback waiting on the event loop. *)
Record task := { due : N; callback : N -> promise -> promise }.

(** What the child process does: whether its completion callback ever
    fires, after how long, and with which exit status. *)
Definition child := option (N * Z).

(** [exec(command, () => { resolve(); })]: the callback ignores the
    error, stdout and stderr it is given. *)
Definition exec_task (c : child) : list task :=
  match c with
  | Some (delay, _status) => [ {| due := delay; callback := resolve |} ]
  | None => []
  end.

(** [setTimeout(resolve, 3000)]. *)
Definition ceiling : N := 3000.
Definition timer_task : list task := [ {| due := ceiling; callback := resolve |} ].

(** The executor registers the exec callback, then the timer. *)
Definition executor (c : child) : list task := exec_task c ++ timer_task.

(** The event loop runs the waiting callbacks by due time, those due
    together in the order they were registered. *)
Fixpoint enqueue (t : task) (q : list task) : list task :=
  match q with
  | [] => [t]
  | u :: q' => if (due t <? due u)%N then t :: q else u :: enqueue t q'
  end.

Definition by_due (ts : list task) : list task := foldr enqueue [] (rev ts).

Definition event_loop (ts : list task) (p : promise) : promise :=
  foldl (fun p t => callback t (due t) p) p (by_due ts).

(** The state in which the promise returned by [playSound] ends. *)
Definition playSound_promise (c : child) : promise :=
  event_loop (executor c) Pending.

End Notifier.

(** ** The run context, the trace and the host *)

(** [CmdRunContext], with the fields the handler initialises. Every phase
    is handed the same object and may write to it. *)
Record CmdRunContext := {
  flags : js_object;
  config : jsval;
  results : gmap string jsval;
  tasks : list jsval;
  localizer : jsval
}.

(** The functions the handler awaits. *)
Inductive callee :=
| pauseIfDebug_ | renderClear_ | renderSpacer_ | renderBanner_ | renderHero_
| setup_ | determineAuthId_ | plan_ | execute_ | renderSummary_
| playSound_ (type : sound_type) | watch_.

(** A property of a telemetry payload. *)
Inductive prop_value :=
| PVal (v : jsval)
| PObj (o : js_object).

Definition payload := list (string * prop_value).

(** What a run does that can be seen from outside, in order. [EvCall] and
    [EvSettled] bracket an awaited call that fulfils; [EvCatch] marks the
    entry of the catch clause. *)
Inductive event :=
| EvLog (args : js_object)
| EvCall (c : callee)
| EvSettled (c : callee)
| EvExec (command : string)
| EvTrack (distinctId : option string) (name : string) (data : payload)
| EvCatch (e : error)
| EvExitGracefully
| EvProcessExit (code : Z).

(** How an awaited promise ends. *)
Inductive outcome (A : Type) :=
| Fulfils (a : A)
| Rejects (e : error)
| Pends.
Arguments Fulfils {A} a.
Arguments Rejects {A} e.
Arguments Pends {A}.

(** The host and the imported modules, none of which is in this file of the
    repository: each takes the state of the outside world [W] and leaves
    a new one. A phase returns the context as it left it. *)
Record Env (W : Type) := {
  platform : string;
  dirname : string;
  path_join : string -> string -> string;
  exec : string -> W -> Notifier.child * W;
  flagsSchema_parse : js_object -> error + js_object;
  pauseIfDebug : jsval -> W -> outcome unit * W;
  renderClear : W -> outcome unit * W;
  renderSpacer : W -> outcome unit * W;
  renderBanner : W -> outcome unit * W;
  renderHero : W -> outcome unit * W;
  renderSummary : gmap string jsval -> W -> outcome unit * W;
  setup : CmdRunContext -> W -> outcome CmdRunContext * W;
  determineAuthId : CmdRunContext -> W -> outcome (option string * CmdRunContext) * W;
  plan : CmdRunContext -> W -> outcome CmdRunContext * W;
  execute : CmdRunContext -> W -> outcome CmdRunContext * W;
  watch : CmdRunContext -> W -> outcome CmdRunContext * W
}.
Arguments platform {W} _.
Arguments dirname {W} _.
Arguments path_join {W} _ _ _.
Arguments exec {W} _ _ _.
Arguments flagsSchema_parse {W} _ _.
Arguments pauseIfDebug {W} _ _ _.
Arguments renderClear {W} _ _.
Arguments renderSpacer {W} _ _.
Arguments renderBanner {W} _ _.
Arguments renderHero {W} _ _.
Arguments renderSummary {W} _ _ _.
Arguments setup {W} _ _ _.
Arguments determineAuthId {W} _ _ _.
Arguments plan {W} _ _ _.
Arguments execute {W} _ _ _.
Arguments watch {W} _ _ _.

(** ** A monad for the handler: state, trace, exceptions, exit *)

(** How a piece of the handler ends. *)
Inductive completion (A : Type) :=
| Normal (a : A)
| Throw (e : error)
| Exit (code : Z)
| Diverge.
Arguments Normal {A} a.
Arguments Throw {A} e.
Arguments Exit {A} code.
Arguments Diverge {A}.

Record store (W : Type) := {
  world : W;
  authId : option string;
  trace : list event
}.
Arguments world {W} _.
Arguments authId {W} _.
Arguments trace {W} _.

Definition M (W A : Type) : Type := store W -> completion A * store W.

Section Monad.
Context {W : Type}.

Definition ret {A} (a : A) : M W A := fun s => (Normal a, s).

Definition bind {A B} (m : M W A) (f : A -> M W B) : M W B := fun s =>
  match m s with
  | (Normal a, s') => f a s'
  | (Throw e, s') => (Throw e, s')
  | (Exit c, s') => (Exit c, s')
  | (Diverge, s') => (Diverge, s')
  end.

Definition log (e : event) (s : store W) : store W :=
  {| world := world s; authId := authId s; trace := trace s ++ [e] |}.

Definition emit (e : event) : M W unit := fun s => (Normal tt, log e s).

Definition get_authId : M W (option string) := fun s => (Normal (authId s), s).

Definition set_authId (v : option string) : M W unit := fun s =>
  (Normal tt, {| world := world s; authId := v; trace := trace s |}).

(** A synchronous call that returns or throws. *)
Definition call_sync {A} (r : error + A) : M W A := fun s =>
  match r with
  | inr a => (Normal a, s)
  | inl e => (Throw e, s)
  end.

(** An imported asynchronous function: it yields a promise, here the way
    the promise ends. *)
Definition extern {A} (f : W -> outcome A * W) : M W (outcome A) := fun s =>
  let '(o, w) := f (world s) in
  (Normal o, {| world := w; authId := authId s; trace := trace s |}).

(** [await c(...)]: control comes back with the value, the rejection is
    thrown at the await, or the handler never resumes. *)
Definition await {A} (c : callee) (m : M W (outcome A)) : M W A :=
  bind (emit (EvCall c)) (fun _ =>
  bind m (fun o => fun s =>
    match o with
    | Fulfils a => (Normal a, log (EvSettled c) s)
    | Rejects e => (Throw e, s)
    | Pends => (Diverge, s)
    end)).

(** [try { body } catch (error) { handler }]. *)
Definition try_catch {A} (body : M W A) (handler : error -> M W A) : M W A := fun s =>
  match body s with
  | (Throw e, s') => handler e (log (EvCatch e) s')
  | r => r
  end.

End Monad.

(** The handler is written with [x ← m; k] and [m ;; k]. *)
#[global] Instance M_ret {W} : MRet (M W) := fun A => @ret W A.
#[global] Instance M_bind {W} : MBind (M W) := fun A B f m => @bind W A B m f.

(** ** The handler *)

(** [authId || "unknown"]: [null] and the empty string are both falsy. *)
Definition or_unknown (id : option string) : string :=
  match id with
  | Some s => if String.eqb s "" then "unknown" else s
  | None => "unknown"
  end.

Section Handler.
Context {W : Type} (E : Env W).

(** [playSound(type)] up to the promise it returns: the command is built
    for the platform and handed to [exec], the timer is set, and the
    promise ends as the event loop leaves it. The executor is given
    [resolve] alone; [command] is a string on every branch, so [exec]
    accepts it and reports the child's failure through the callback. *)
Definition playSound (type : sound_type) : M W (outcome unit) := fun s =>
  let command := Notifier.command (path_join E) (dirname E) (platform E) type in
  let '(c, w) := exec E command (world s) in
  let s' := log (EvExec command) {| world := w; authId := authId s; trace := trace s |} in
  match Notifier.playSound_promise c with
  | Notifier.Fulfilled _ => (Normal (Fulfils tt), s')
  | Notifier.Rejected _ => (Normal (Rejects "playSound"), s')
  | Notifier.Pending => (Normal Pends, s')
  end.

(** Modelled from the spec: [trackEvent] (utils/observability, not among
    the sources) is fire-and-forget and never throws into the handler,
    which calls it and does not await it. *)
Definition trackEvent (distinctId : option string) (name : string) (data : payload) : M W unit :=
  emit (EvTrack distinctId name data).

Definition snapshot (ctx : CmdRunContext) : payload :=
  [ ("config", PVal (config ctx)); ("flags", PObj (flags ctx)) ].

(** Modelled from the spec: [exitGracefully] (utils/exit-gracefully, not
    among the sources) does its cleanup and terminates the process with
    status 0. *)
Definition exitGracefully : M W unit := fun s => (Exit 0%Z, log EvExitGracefully s).

(** [process.exit(code)]. *)
Definition process_exit (code : Z) : M W unit := fun s => (Exit code, log (EvProcessExit code) s).

Definition when_ (b : bool) (m : M W unit) : M W unit := if b then m else mret tt.

(** The body of the [try] block. *)
Definition try_block (args : js_object) : M W unit :=
  parsed ← call_sync (flagsSchema_parse E args);
  let ctx := {| flags := parsed; config := JNull; results := ∅; tasks := []; localizer := JNull |} in
  await pauseIfDebug_ (extern (pauseIfDebug E (js_get (flags ctx) "debug")));;
  await renderClear_ (extern (renderClear E));;
  await renderSpacer_ (extern (renderSpacer E));;
  await renderBanner_ (extern (renderBanner E));;
  await renderHero_ (extern (renderHero E));;
  await renderSpacer_ (extern (renderSpacer E));;
  ctx ← await setup_ (extern (setup E ctx));
  r ← await determineAuthId_ (extern (determineAuthId E ctx));
  let ctx := r.2 in
  set_authId r.1;;
  id ← get_authId;
  trackEvent id "cmd.run.start" (snapshot ctx);;
  await renderSpacer_ (extern (renderSpacer E));;
  ctx ← await plan_ (extern (plan E ctx));
  await renderSpacer_ (extern (renderSpacer E));;
  ctx ← await execute_ (extern (execute E ctx));
  await renderSpacer_ (extern (renderSpacer E));;
  await renderSummary_ (extern (renderSummary E (results ctx)));;
  await renderSpacer_ (extern (renderSpacer E));;
  when_ (truthy (js_get (flags ctx) "sound")) (await (playSound_ success) (playSound success));;
  ctx ← (if truthy (js_get (flags ctx) "watch")
         then await watch_ (extern (watch E ctx))
         else mret ctx);
  id ← get_authId;
  trackEvent id "cmd.run.success" (snapshot ctx);;
  exitGracefully.

(** The [catch] clause. It has the raw [args], not the context. *)
Definition catch_clause (args : js_object) (_ : error) : M W unit :=
  id ← get_authId;
  trackEvent (Some (or_unknown id)) "cmd.run.error" [];;
  when_ (truthy (js_get args "sound")) (await (playSound_ failure) (playSound failure));;
  process_exit 1.

Definition action (args : js_object) : M W unit :=
  emit (EvLog args);;
  set_authId None;;
  try_catch (try_block args) (catch_clause args).

(** A whole run, from a state of the world. *)
Definition run (args : js_object) (w : W) : completion unit * store W :=
  action args {| world := w; authId := None; trace := [] |}.

Definition events (args : js_object) (w : W) : list event := trace (run args w).2.

Definition exit_status (args : js_object) (w : W) : option Z :=
  match (run args w).1 with
  | Exit code => Some code
  | _ => None
  end.

End Handler.

(** ** Reading a trace *)

Definition callee_code (c : callee) : nat :=
  match c with
  | pauseIfDebug_ => 0 | renderClear_ => 1 | renderSpacer_ => 2
  | renderBanner_ => 3 | renderHero_ => 4 | setup_ => 5
  | determineAuthId_ => 6 | plan_ => 7 | execute_ => 8
  | renderSummary_ => 9 | playSound_ success => 10
  | playSound_ failure => 11 | watch_ => 12
  end.

Definition callee_eqb (c d : callee) : bool := Nat.eqb (callee_code c) (callee_code d).

Definition is_call (c : callee) (e : event) : bool :=
  match e with EvCall d => callee_eqb c d | _ => false end.

Definition is_settled (c : callee) (e : event) : bool :=
  match e with EvSettled d => callee_eqb c d | _ => false end.

Definition is_track (name : string) (e : event) : bool :=
  match e with EvTrack _ n _ => String.eqb n name | _ => false end.

Definition is_catch (e : event) : bool :=
  match e with EvCatch _ => true | _ => false end.

Definition is_exec (command : string) (e : event) : bool :=
  match e with EvExec c => String.eqb c command | _ => false end.

(** Some event of the trace satisfies [p]. *)
Definition occurs (p : event -> bool) (tr : list event) : bool := existsb p tr.

(** Every [q]-event has a [p]-event before it. *)
Definition precedes (p q : event -> bool) (tr : list event) : Prop :=
  forall pre e post, tr = pre ++ e :: post -> q e = true ->
    exists e', e' ∈ pre /\ p e' = true.

Fixpoint precedesb (p q : event -> bool) (tr : list event) : bool :=
  match tr with
  | [] => true
  | e :: tr' => if q e then false else if p e then true else precedesb p q tr'
  end.

(** Some [p]-event has no [q]-event before it. *)
Definition comes_first (p q : event -> bool) (tr : list event) : Prop :=
  exists pre e post, tr = pre ++ e :: post /\ p e = true /\
    forall e', e' ∈ pre -> q e' = false.

Fixpoint comes_firstb (p q : event -> bool) (tr : list event) : bool :=
  match tr with
  | [] => false
  | e :: tr' => if p e then true else if q e then false else comes_firstb p q tr'
  end.

(** No [q]-event follows a [p]-event. *)
Definition never_after (p q : event -> bool) (tr : list event) : Prop :=
  forall pre e post, tr = pre ++ e :: post -> p e = true ->
    forall e', e' ∈ post -> q e' = false.

Fixpoint never_afterb (p q : event -> bool) (tr : list event) : bool :=
  match tr with
  | [] => true
  | e :: tr' => if p e then negb (existsb q tr') else never_afterb p q tr'
  end.

(** The telemetry of a trace: each event's name and distinct id. *)
Definition telemetry (tr : list event) : list (string * option string) :=
  omap (fun e => match e with EvTrack id name _ => Some (name, id) | _ => None end) tr.

(** The shape of a telemetry event of the handler. *)
Definition telemetry_shape (e : event) : Prop :=
  match e with
  | EvTrack _ name data =>
      (name = "cmd.run.start" /\ exists ctx, data = snapshot ctx) \/
      (name = "cmd.run.success" /\ exists ctx, data = snapshot ctx) \/
      (name = "cmd.run.error" /\ data = [])
  | _ => True
  end.

(** The names the specification gives the three events. *)
Definition spec_names : list string := ["run.start"; "run.success"; "run.error"].

(** ** What is assumed of the host, where a statement needs it *)

Section Assumptions.
Context {W : Type} (E : Env W).

(** The rendering helpers only print: their promises fulfil. *)
Definition ui_returns : Prop :=
  (forall w, (renderClear E w).1 = Fulfils tt) /\
  (forall w, (renderSpacer E w).1 = Fulfils tt) /\
  (forall w, (renderBanner E w).1 = Fulfils tt) /\
  (forall w, (renderHero E w).1 = Fulfils tt) /\
  (forall r w, (renderSummary E r w).1 = Fulfils tt).

Definition keeps_flags (phase : CmdRunContext -> W -> outcome CmdRunContext * W) : Prop :=
  forall ctx w ctx', (phase ctx w).1 = Fulfils ctx' -> flags ctx' = flags ctx.

(** No phase before the summary rewrites [ctx.flags]. *)
Definition flags_immutable : Prop :=
  keeps_flags (setup E) /\
  (forall ctx w id ctx', (determineAuthId E ctx w).1 = Fulfils (id, ctx') -> flags ctx' = flags ctx) /\
  keeps_flags (plan E) /\
  keeps_flags (execute E).

(** The schema hands the boolean option [k] through: the validated flag
    is set exactly when the raw option is. *)
Definition schema_keeps (k : string) : Prop :=
  forall args parsed, flagsSchema_parse E args = inr parsed ->
    truthy (js_get parsed k) = truthy (js_get args k).

(** The option [k] as the command line gave it. *)
Definition raw_flag (args : js_object) (k : string) : bool := truthy (js_get args k).

(** The option [k] of the validated flags, unset when validation fails. *)
Definition flag (args : js_object) (k : string) : bool :=
  match flagsSchema_parse E args with
  | inr parsed => truthy (js_get parsed k)
  | inl _ => false
  end.

(** The [authId] variable when the run ends. *)
Definition resolved (args : js_object) (w : W) : option string := authId (run E args w).2.

End Assumptions.
Arguments raw_flag args k /.

(** ** Sample hosts *)

Definition always {A} (o : outcome A) : unit -> outcome A * unit := fun w => (o, w).

Definition join_slash (a b : string) : string := a +:+ "/" +:+ b.

(** A schema that takes [sound], [watch] and [debug] only as booleans or
    not at all, and returns the options otherwise as given. *)
Definition boolish (v : jsval) : bool :=
  match v with JUndefined | JBool _ => true | _ => false end.

Definition sample_parse (args : js_object) : error + js_object :=
  if boolish (js_get args "sound") && boolish (js_get args "watch") && boolish (js_get args "debug")
  then inr args else inl "ZodError".

(** A host on which every rendering helper returns, the child process
    ends after [120] ms with status [1], and the debug gate, the
    resolution of the authId, execute and watch end as told. *)
Definition sample_host (plat : string) (gate : outcome unit)
    (auth : outcome (option string)) (exe wat : outcome unit) : Env unit := {|
  platform := plat;
  dirname := "/cli/build";
  path_join := join_slash;
  exec := fun _ w => (Some (120%N, 1%Z), w);
  flagsSchema_parse := sample_parse;
  pauseIfDebug := fun _ => always gate;
  renderClear := always (Fulfils tt);
  renderSpacer := always (Fulfils tt);
  renderBanner := always (Fulfils tt);
  renderHero := always (Fulfils tt);
  renderSummary := fun _ => always (Fulfils tt);
  setup := fun c => always (Fulfils c);
  determineAuthId := fun c w =>
    (match auth with Fulfils id => Fulfils (id, c) | Rejects e => Rejects e | Pends => Pends end, w);
  plan := fun c => always (Fulfils c);
  execute := fun c w =>
    (match exe with Fulfils _ => Fulfils c | Rejects e => Rejects e | Pends => Pends end, w);
  watch := fun c w =>
    (match wat with Fulfils _ => Fulfils c | Rejects e => Rejects e | Pends => Pends end, w)
|}.

Definition calm : Env unit :=
  sample_host "linux" (Fulfils tt) (Fulfils (Some "ada")) (Fulfils tt) (Fulfils tt).

(** The same on win32, and with the debug gate never confirmed. *)
Definition calm_win32 : Env unit :=
  sample_host "win32" (Fulfils tt) (Fulfils (Some "ada")) (Fulfils tt) (Fulfils tt).

Definition held : Env unit :=
  sample_host "linux" Pends (Fulfils (Some "ada")) (Fulfils tt) (Fulfils tt).

Definition args_sound_watch : js_object := {[ "sound" := JBool true; "watch" := JBool true ]}.
Definition args_watch : js_object := {[ "watch" := JBool true ]}.
Definition args_bad_sound : js_object := {[ "sound" := JStr "loud" ]}.
Definition args_debug : js_object := {[ "debug" := JBool true ]}.



Definition watch_throws : Env unit :=
  sample_host "linux" (Fulfils tt) (Fulfils (Some "ada")) (Fulfils tt) (Rejects "watcher died").

(** [calm], except that rendering the summary fails. *)
Definition summary_throws : Env unit := {|
  platform := platform calm;
  dirname := dirname calm;
  path_join := path_join calm;
  exec := exec calm;
  flagsSchema_parse := flagsSchema_parse calm;
  pauseIfDebug := pauseIfDebug calm;
  renderClear := renderClear calm;
  renderSpacer := renderSpacer calm;
  renderBanner := renderBanner calm;
  renderHero := renderHero calm;
  renderSummary := fun _ => always (Rejects "write EPIPE");
  setup := setup calm;
  determineAuthId := determineAuthId calm;
  plan := plan calm;
  execute := execute calm;
  watch := watch calm
|}.

(** ** Repeatable options *)

(** The processing function given to [--target-locale], [--bucket],
    [--file] and [--key]: [(val, prev) => (prev ? [...prev, val] : [val])].
    [prev] is [undefined] while the option has no value; an array, the
    empty one too, is truthy. The spread builds a new array. *)
Definition collect (val : string) (prev : option (list string)) : list string :=
  match prev with
  | Some p => p ++ [val]
  | None => [val]
  end.

(** The value of a repeatable option after its occurrences on the command
    line: the option parser calls the function once per occurrence, left to
    right, with the value so far. *)
Definition option_value (start : option (list string)) (occurrences : list string)
    : option (list string) :=
  foldl (fun prev val => Some (collect val prev)) start occurrences.

(** ** Counting in a trace *)

Definition count_events (p : event -> bool) (tr : list event) : nat :=
  length (List.filter p tr).

Definition is_spawn (e : event) : bool :=
  match e with EvExec _ => true | _ => false end.

(** How often the handler may call a function in one run: the spacer is
    printed at six places, everything else is called at one. *)
Definition call_sites (c : callee) : nat :=
  match c with renderSpacer_ => 6 | _ => 1 end.

(** The names of the telemetry events of a trace, in order. *)
Definition telemetry_names (tr : list event) : list string := (telemetry tr).*1.

(** A host on which nothing fails and nothing hangs. *)
Definition cooperative {W} (E : Env W) : Prop :=
  (forall v w, (pauseIfDebug E v w).1 = Fulfils tt) /\
  ui_returns E /\
  (forall c w, exists c', (setup E c w).1 = Fulfils c') /\
  (forall c w, exists r, (determineAuthId E c w).1 = Fulfils r) /\
  (forall c w, exists c', (plan E c w).1 = Fulfils c') /\
  (forall c w, exists c', (execute E c w).1 = Fulfils c') /\
  (forall c w, exists c', (watch E c w).1 = Fulfils c').

Definition is_log (e : event) : bool :=
  match e with EvLog _ => true | _ => false end.

Definition is_process_exit (e : event) : bool :=
  match e with EvProcessExit _ => true | _ => false end.

Definition any_event (_ : event) : bool := true.

(** ** The notifier: its command and its promise *)

(** A settled promise ignores every later resolver. *)
Lemma resolvers_keep_fulfilled (ts : list Notifier.task) (t : N) :
  Forall (fun u => Notifier.callback u = Notifier.resolve) ts ->
  foldl (fun p u => Notifier.callback u (Notifier.due u) p) (Notifier.Fulfilled t) ts
  = Notifier.Fulfilled t.
Proof.
  induction 1 as [|u ts Hu _ IH]; simpl.
  - reflexivity.
  - rewrite Hu. simpl. exact IH.
Qed.

Lemma enqueue_resolvers (t : Notifier.task) (q : list Notifier.task) :
  Notifier.callback t = Notifier.resolve ->
  Forall (fun u => Notifier.callback u = Notifier.resolve) q ->
  Forall (fun u => Notifier.callback u = Notifier.resolve) (Notifier.enqueue t q).
Proof.
  intros Ht Hq. induction Hq as [|u q Hu Hq IH]; simpl.
  - repeat constructor. exact Ht.
  - destruct (Notifier.due t <? Notifier.due u)%N; repeat constructor; auto.
Qed.

(** The first callback the loop runs is one that is due earliest. *)
Lemma enqueue_head_due (t : Notifier.task) (q : list Notifier.task) :
  exists u rest, Notifier.enqueue t q = u :: rest /\
    Notifier.due u = match q with
                     | [] => Notifier.due t
                     | v :: _ => N.min (Notifier.due t) (Notifier.due v)
                     end.
Proof.
  destruct q as [|v q]; simpl.
  - eauto.
  - destruct (N.ltb_spec (Notifier.due t) (Notifier.due v)).
    + eexists _, _. split; [reflexivity|]. lia.
    + eexists _, _. split; [reflexivity|]. lia.
Qed.

(** The promise of [playSound] is fulfilled, at the earlier of the child's
    callback and the timer. *)
Lemma promise_settles (c : Notifier.child) :
  Notifier.playSound_promise c =
  Notifier.Fulfilled
    (match c with
     | Some (d, _) => N.min d Notifier.ceiling
     | None => Notifier.ceiling
     end).
Proof.
  destruct c as [[d st]|]; [|reflexivity].
  unfold Notifier.playSound_promise, Notifier.event_loop.
  change (Notifier.by_due (Notifier.executor (Some (d, st)))) with
    (Notifier.enqueue
       {| Notifier.due := Notifier.ceiling; Notifier.callback := Notifier.resolve |}
       [ {| Notifier.due := d; Notifier.callback := Notifier.resolve |} ]).
  destruct (enqueue_head_due
              {| Notifier.due := Notifier.ceiling; Notifier.callback := Notifier.resolve |}
              [ {| Notifier.due := d; Notifier.callback := Notifier.resolve |} ])
    as (u & rest & Hq & Hdue).
  assert (Hall : Forall (fun u => Notifier.callback u = Notifier.resolve) (u :: rest)).
  { rewrite <- Hq. apply enqueue_resolvers; repeat constructor. }
  rewrite Hq. inversion Hall as [|? ? Hu Hrest]; subst.
  simpl foldl. rewrite Hu. simpl Notifier.resolve.
  rewrite resolvers_keep_fulfilled by exact Hrest.
  rewrite Hdue. simpl. f_equal. lia.
Qed.

(** What [playSound] hands back to the handler, and what it leaves. *)
Lemma playSound_run {W} (E : Env W) (type : sound_type) (s : store W) :
  playSound E type s =
  (Normal (Fulfils tt),
   log (EvExec (Notifier.command (path_join E) (dirname E) (platform E) type))
     {| world := (exec E (Notifier.command (path_join E) (dirname E) (platform E) type)
                    (world s)).2;
        authId := authId s; trace := trace s |}).
Proof.
  unfold playSound.
  destruct (exec E _ (world s)) as [c w]. rewrite promise_settles. reflexivity.
Qed.

(** C7. Whatever the kind, the platform and the fate of the child process
    (its callback firing early, late, with a failure status, or never),
    the promise returned by [playSound] is fulfilled, never rejected or
    left pending, no later than 3000 ms after the call: at the child's
    callback if that comes first, at the timer otherwise. The handler's
    await of it returns. *)
Theorem playSound_settles_by_ceiling {W} (E : Env W) (type : sound_type) (s : store W) :
  let child := (exec E (Notifier.command (path_join E) (dirname E) (platform E) type)
                  (world s)).1 in
  (exists t, Notifier.playSound_promise child = Notifier.Fulfilled t /\
     (t <= 3000)%N /\
     t = match child with
         | Some (delay, _) => N.min delay 3000
         | None => 3000%N
         end) /\
  (playSound E type s).1 = Normal (Fulfils tt).
Proof.
  intros child. split.
  - eexists. split; [apply promise_settles|].
    unfold Notifier.ceiling. destruct child as [[d st]|]; split; try reflexivity; lia.
  - rewrite playSound_run. reflexivity.
Qed.

(** C8, as the code has it. On win32 the managed sound-player call reads
    [soundFiles[1]], past the end of the one-element list: the read is
    [undefined] for either kind and the command names the file
    'undefined'; only the fallback reads the candidate that exists. *)
Theorem win32_primary_out_of_bounds (path_join : string -> string -> string)
    (dirname : string) (type : sound_type) :
  length (Notifier.soundFiles path_join dirname type) = 1%nat /\
  Notifier.win32_primary path_join dirname type = None /\
  Notifier.win32_fallback path_join dirname type =
    Some (path_join (path_join dirname "../assets") (sound_type_name type +:+ ".mp3")) /\
  Notifier.command path_join dirname "win32" type =
    "powershell -c " +:+ dq
      +:+ "try { (New-Object Media.SoundPlayer 'undefined').PlaySync() } catch { Start-Process -FilePath '"
      +:+ path_join (path_join dirname "../assets") (sound_type_name type +:+ ".mp3")
      +:+ "' -WindowStyle Hidden -Wait }" +:+ dq.
Proof.
  repeat split.
Qed.

(** ** Deciding the order of events *)

Lemma callee_eqb_eq (c d : callee) : callee_eqb c d = true <-> c = d.
Proof.
  unfold callee_eqb. rewrite Nat.eqb_eq. split.
  - destruct c as [| | | | | | | | | |[]|], d as [| | | | | | | | | |[]|];
      simpl; intros [=]; reflexivity.
  - intros ->. reflexivity.
Qed.

Lemma precedesb_spec (p q : event -> bool) (tr : list event) :
  precedesb p q tr = true <-> precedes p q tr.
Proof.
  unfold precedes. induction tr as [|x tr IH]; simpl.
  - split; [|reflexivity]. intros _ [|] ? ? [=].
  - destruct (q x) eqn:Hq.
    + split; [discriminate|]. intros H.
      destruct (H [] x tr eq_refl Hq) as (e' & Hin & _). inversion Hin.
    + destruct (p x) eqn:Hp.
      * split; [|reflexivity]. intros _ [|y pre] e post [= -> Htr] He.
        { congruence. }
        { exists y. split; [left|exact Hp]. }
      * rewrite IH. split.
        { intros H [|y pre] e post [= -> Htr] He; [congruence|].
          destruct (H pre e post Htr He) as (e' & Hin & He').
          exists e'. split; [right; exact Hin|exact He']. }
        { intros H pre e post -> He.
          destruct (H (x :: pre) e post eq_refl He) as (e' & Hin & He').
          exists e'. split; [|exact He'].
          inversion Hin; subst; [congruence|assumption]. }
Qed.

Lemma comes_firstb_spec (p q : event -> bool) (tr : list event) :
  comes_firstb p q tr = true <-> comes_first p q tr.
Proof.
  unfold comes_first. induction tr as [|x tr IH]; simpl.
  - split; [discriminate|]. intros ([|] & ? & ? & [=] & _).
  - destruct (p x) eqn:Hp.
    + split; [|reflexivity]. intros _. exists [], x, tr.
      repeat split; [exact Hp|]. intros e' Hin. inversion Hin.
    + destruct (q x) eqn:Hq.
      * split; [discriminate|].
        intros ([|y pre] & e & post & [= -> Htr] & He & Hpre); [congruence|].
        rewrite Hpre in Hq; [discriminate|left].
      * rewrite IH. split.
        { intros (pre & e & post & -> & He & Hpre).
          exists (x :: pre), e, post. repeat split; [exact He|].
          intros e' Hin. inversion Hin; subst; auto. }
        { intros ([|y pre] & e & post & [= -> Htr] & He & Hpre); [congruence|].
          exists pre, e, post. repeat split; [exact Htr|exact He|].
          intros e' Hin. apply Hpre. right. exact Hin. }
Qed.

Lemma existsb_false_elem (q : event -> bool) (tr : list event) :
  existsb q tr = false <-> forall e, e ∈ tr -> q e = false.
Proof.
  induction tr as [|x tr IH]; simpl.
  - split; [|reflexivity]. intros _ e Hin. inversion Hin.
  - rewrite orb_false_iff, IH. split.
    + intros [Hx Htr] e Hin. inversion Hin; subst; auto.
    + intros H. split; [apply H; left|]. intros e Hin. apply H. right. exact Hin.
Qed.

Lemma never_afterb_spec (p q : event -> bool) (tr : list event) :
  never_afterb p q tr = true <-> never_after p q tr.
Proof.
  unfold never_after. induction tr as [|x tr IH]; simpl.
  - split; [|reflexivity]. intros _ [|] ? ? [=].
  - destruct (p x) eqn:Hp.
    + rewrite negb_true_iff, existsb_false_elem. split.
      * intros H [|y pre] e post [= -> Htr] He e' Hin.
        { apply H. rewrite Htr. exact Hin. }
        { apply H. rewrite Htr. apply elem_of_app. right. right. exact Hin. }
      * intros H e Hin. exact (H [] x tr eq_refl Hp e Hin).
    + rewrite IH. split.
      * intros H [|y pre] e post [= -> Htr] He; [congruence|].
        exact (H pre e post Htr He).
      * intros H pre e post -> He. exact (H (x :: pre) e post eq_refl He).
Qed.

Lemma occurs_elem (p : event -> bool) (tr : list event) :
  occurs p tr = true <-> exists e, e ∈ tr /\ p e = true.
Proof.
  unfold occurs. rewrite existsb_exists. split.
  - intros (e & Hin & He). exists e. split; [apply list_elem_of_In; exact Hin|exact He].
  - intros (e & Hin & He). exists e. split; [apply list_elem_of_In; exact Hin|exact He].
Qed.

(** ** Running the handler symbolically *)

Ltac unfold_run :=
  cbv beta iota zeta delta
    [events exit_status resolved flag run action try_block catch_clause try_catch
     mbind M_bind mret M_ret bind ret emit log await extern call_sync
     get_authId set_authId trackEvent when_ exitGracefully process_exit
     world authId trace fst snd app].

(** A rendering helper that is known to return. *)
Ltac use_ui Hx o :=
  match type of Hx with
  | ?call = (_, _) =>
      let X := fresh "X" in
      assert (X : call.1 = Fulfils tt) by
        (match goal with Hu : _ |- _ => apply Hu end);
      rewrite Hx in X; simpl in X; subst o
  end.

(** A phase that is known to leave [ctx.flags] alone. *)
Ltac note_flags Hx :=
  try match type of Hx with
  | ?f ?c ?w = (Fulfils (?id, ?c'), _) =>
      match goal with
      | Hk : forall ctx w id ctx', (f ctx w).1 = Fulfils (id, ctx') -> _ |- _ =>
          let X := fresh "Hf" in
          pose proof (Hk c w id c' (f_equal fst Hx)) as X; cbn [flags] in X;
          rewrite ?X
      end
  | ?f ?c ?w = (Fulfils ?c', _) =>
      match goal with
      | Hk : keeps_flags f |- _ =>
          let X := fresh "Hf" in
          pose proof (Hk c w c' (f_equal fst Hx)) as X; cbn [flags] in X;
          rewrite ?X
      end
  end.

Ltac note_schema Hp :=
  try match type of Hp with
  | flagsSchema_parse ?E ?a = inr ?f =>
      repeat match goal with
      | Hs : schema_keeps E ?k |- _ =>
          let X := fresh "Hs" in
          pose proof (Hs a f Hp) as X; rewrite ?X; clear Hs
      end
  end.

Ltac pending_call :=
  lazymatch goal with
  | |- context [pauseIfDebug ?E ?v ?w] => constr:(pauseIfDebug E v w)
  | |- context [renderClear ?E ?w] => constr:(renderClear E w)
  | |- context [renderSpacer ?E ?w] => constr:(renderSpacer E w)
  | |- context [renderBanner ?E ?w] => constr:(renderBanner E w)
  | |- context [renderHero ?E ?w] => constr:(renderHero E w)
  | |- context [renderSummary ?E ?r ?w] => constr:(renderSummary E r w)
  | |- context [setup ?E ?c ?w] => constr:(setup E c w)
  | |- context [determineAuthId ?E ?c ?w] => constr:(determineAuthId E c w)
  | |- context [plan ?E ?c ?w] => constr:(plan E c w)
  | |- context [execute ?E ?c ?w] => constr:(execute E c w)
  | |- context [watch ?E ?c ?w] => constr:(watch E c w)
  end.

(** One step: the next call of the handler, by the ways it can end. *)
Ltac case_call :=
  match goal with
  | |- context [playSound ?E ?t ?s] =>
      rewrite (playSound_run E t s);
      cbv beta iota zeta delta [log world authId trace fst snd app]
  | |- context [match flagsSchema_parse ?E ?a with _ => _ end] =>
      let Hp := fresh "Hp" in
      destruct (flagsSchema_parse E a) eqn:Hp; cbv beta iota zeta; cbn [flags];
      note_schema Hp
  | |- _ =>
      let x := pending_call in
      let o := fresh "o" in let w := fresh "w" in let Hx := fresh "Hx" in
      destruct x as [o w] eqn:Hx;
      first [ use_ui Hx o
            | lazymatch type of o with
              | outcome unit => destruct o as [[]|?|]
              | outcome (_ * _) => destruct o as [[? ?]|?|]
              | _ => destruct o as [?|?|]
              end ];
      cbv beta iota zeta; note_flags Hx
  | |- context [if ?b then _ else _] =>
      let Hb := fresh "Hb" in
      destruct b eqn:Hb; cbv beta iota zeta
  end.

Ltac run_cases := unfold_run; repeat case_call; cbn [flags] in *; simpl.

(** ** The sample hosts meet the assumptions *)

Lemma sample_host_ui plat gate auth exe wat :
  ui_returns (sample_host plat gate auth exe wat).
Proof. repeat split. Qed.

Lemma sample_host_flags plat gate auth exe wat :
  flags_immutable (sample_host plat gate auth exe wat).
Proof.
  repeat split; unfold keeps_flags; simpl.
  - intros ctx w ctx' [= ->]. reflexivity.
  - intros ctx w id ctx'. destruct auth; intros [=]. subst. reflexivity.
  - intros ctx w ctx' [= ->]. reflexivity.
  - intros ctx w ctx'. destruct exe; intros [=]. subst. reflexivity.
Qed.

Lemma sample_host_schema plat gate auth exe wat k :
  schema_keeps (sample_host plat gate auth exe wat) k.
Proof.
  intros args parsed. simpl. unfold sample_parse.
  destruct (_ && _); intros [=]. subst. reflexivity.
Qed.

(** ** The order of the run *)

(** C1, as the code has it. In a run in which setup, plan and execute
    succeed and the watch flag is set, the watch phase is entered, and the
    success event is sent only after the watch phase has returned: every
    success event of the trace has the return of watch before it, and
    there is one exactly when watch returns. *)
Theorem success_event_after_watch {W} (E : Env W) (args : js_object) (w : W) :
  ui_returns E -> flags_immutable E ->
  flag E args "watch" = true ->
  occurs (is_settled setup_) (events E args w) = true ->
  occurs (is_settled plan_) (events E args w) = true ->
  occurs (is_settled execute_) (events E args w) = true ->
  occurs (is_call watch_) (events E args w) = true /\
  precedes (is_settled watch_) (is_track "cmd.run.success") (events E args w) /\
  (occurs (is_track "cmd.run.success") (events E args w) = true <->
   occurs (is_settled watch_) (events E args w) = true).
Proof.
  intros (U1 & U2 & U3 & U4 & U5) (K1 & K2 & K3 & K4).
  rewrite <- precedesb_spec.
  run_cases; intuition congruence.
Qed.

(** The run on [calm] with the watch option is such a run. *)
Lemma success_event_after_watch_witness :
  (ui_returns calm /\ flags_immutable calm /\ flag calm args_watch "watch" = true /\
   occurs (is_settled execute_) (events calm args_watch tt) = true) /\
  occurs (is_call watch_) (events calm args_watch tt) = true /\
  precedes (is_settled watch_) (is_track "cmd.run.success") (events calm args_watch tt) /\
  (occurs (is_track "cmd.run.success") (events calm args_watch tt) = true <->
   occurs (is_settled watch_) (events calm args_watch tt) = true).
Proof.
  assert (U : ui_returns calm) by apply sample_host_ui.
  assert (K : flags_immutable calm) by apply sample_host_flags.
  split.
  - split; [exact U|]. split; [exact K|]. split; vm_compute; reflexivity.
  - apply (success_event_after_watch calm args_watch tt U K); vm_compute; reflexivity.
Defined.

(** C1, refuted as stated: on a host where every phase succeeds and the
    watch flag is set, no success event comes before the watch phase is
    entered. *)
Lemma success_event_not_before_watch :
  occurs (is_settled setup_) (events calm args_watch tt) = true /\
  occurs (is_settled plan_) (events calm args_watch tt) = true /\
  occurs (is_settled execute_) (events calm args_watch tt) = true /\
  flag calm args_watch "watch" = true /\
  ~ comes_first (is_track "cmd.run.success") (is_call watch_) (events calm args_watch tt).
Proof.
  repeat split; try (vm_compute; reflexivity).
  rewrite <- comes_firstb_spec. vm_compute. discriminate.
Qed.

(** ** The authId *)




(** ** Sounds *)

(** C3, as the code has it. The failure sound is played, in every run,
    exactly when the raw sound option is set and the catch clause was
    entered. The success sound is played exactly when the validated
    sound flag is set and execute returned, provided the rendering
    helpers return and the phases leave the flags alone: the summary and
    a spacer are rendered between execute and the sound, inside the try
    block. *)
Theorem sound_played_iff {W} (E : Env W) (args : js_object) (w : W) :
  (ui_returns E -> flags_immutable E ->
     (occurs (is_call (playSound_ success)) (events E args w) = true <->
        flag E args "sound" = true /\
        occurs (is_settled execute_) (events E args w) = true)) /\
  (occurs (is_call (playSound_ failure)) (events E args w) = true <->
     raw_flag args "sound" = true /\
     occurs is_catch (events E args w) = true).
Proof.
  split.
  - intros (U1 & U2 & U3 & U4 & U5) (K1 & K2 & K3 & K4).
    run_cases; intuition congruence.
  - run_cases; intuition congruence.
Qed.

(** The run on [calm] with the sound option: the success sound is
    played, the failure sound is not. *)
Lemma sound_played_iff_witness :
  (ui_returns calm /\ flags_immutable calm) /\
  (occurs (is_call (playSound_ success)) (events calm args_sound_watch tt) = true <->
     flag calm args_sound_watch "sound" = true /\
     occurs (is_settled execute_) (events calm args_sound_watch tt) = true) /\
  (occurs (is_call (playSound_ failure)) (events calm args_sound_watch tt) = true <->
     raw_flag args_sound_watch "sound" = true /\
     occurs is_catch (events calm args_sound_watch tt) = true).
Proof.
  assert (U : ui_returns calm) by apply sample_host_ui.
  assert (K : flags_immutable calm) by apply sample_host_flags.
  split; [split; [exact U|exact K]|].
  destruct (sound_played_iff calm args_sound_watch tt) as [Hsuccess Hfailure].
  split; [exact (Hsuccess U K)|exact Hfailure].
Defined.

(** C3, refuted as stated: when rendering the summary fails, the sound
    option is set, raw and validated, and execute has returned, yet the
    success sound is not played; the failure sound is. *)
Lemma success_sound_skipped_when_summary_fails :
  raw_flag args_sound_watch "sound" = true /\
  flag summary_throws args_sound_watch "sound" = true /\
  occurs (is_settled execute_) (events summary_throws args_sound_watch tt) = true /\
  occurs (is_call (playSound_ success)) (events summary_throws args_sound_watch tt) = false /\
  occurs (is_call (playSound_ failure)) (events summary_throws args_sound_watch tt) = true.
Proof.
  vm_compute. repeat split.
Qed.

(** ** Telemetry *)

(** C4, as the code has it. Every telemetry event of a run is named
    [cmd.run.start], [cmd.run.success] or [cmd.run.error]; the first two
    carry the config and the flags of the context, the last the empty
    object. *)
Theorem telemetry_events_shape {W} (E : Env W) (args : js_object) (w : W) :
  Forall telemetry_shape (events E args w).
Proof.
  run_cases;
    repeat match goal with
           | |- Forall _ (_ :: _) =>
               constructor; [ first [ exact I | cbn; unfold snapshot; eauto 8 ] | ]
           | |- Forall _ [] => constructor
           end.
Qed.

(** C4, refuted as stated: the events of a successful run are named with
    the [cmd.] prefix, which none of the three names of the specification
    has. *)
Lemma telemetry_names_differ :
  telemetry (events calm ∅ tt) =
    [("cmd.run.start", Some "ada"); ("cmd.run.success", Some "ada")] /\
  ~ Forall (fun t : string * option string => t.1 ∈ spec_names) (telemetry (events calm ∅ tt)).
Proof.
  split; [vm_compute; reflexivity|].
  intros H. vm_compute in H. inversion H as [|? ? Hn _]; subst.
  repeat (inversion Hn as [|? ? ? Hn']; subst; clear Hn; rename Hn' into Hn).
Qed.

(** ** Validation failures *)

(** C5. When the flags fail validation, setup, plan, execute and watch
    are not invoked and the process exits with status 1. *)
Theorem invalid_flags_no_phase {W} (E : Env W) (args : js_object) (w : W) (e : error) :
  flagsSchema_parse E args = inl e ->
  occurs (is_call setup_) (events E args w) = false /\
  occurs (is_call plan_) (events E args w) = false /\
  occurs (is_call execute_) (events E args w) = false /\
  occurs (is_call watch_) (events E args w) = false /\
  exit_status E args w = Some 1%Z.
Proof.
  intros Hparse. unfold_run. rewrite Hparse.
  repeat case_call; repeat split.
Qed.

(** A [sound] option that is a string fails the sample schema. *)
Lemma invalid_flags_no_phase_witness :
  flagsSchema_parse calm args_bad_sound = inl "ZodError" /\
  occurs (is_call setup_) (events calm args_bad_sound tt) = false /\
  occurs (is_call plan_) (events calm args_bad_sound tt) = false /\
  occurs (is_call execute_) (events calm args_bad_sound tt) = false /\
  occurs (is_call watch_) (events calm args_bad_sound tt) = false /\
  exit_status calm args_bad_sound tt = Some 1%Z.
Proof.
  split; [vm_compute; reflexivity|].
  apply (invalid_flags_no_phase calm args_bad_sound tt "ZodError").
  vm_compute. reflexivity.
Defined.

(** C10. When validation itself throws and the raw [sound] option is
    truthy, the run is: the log line, the catch, the error event with the
    sentinel, the failure sound awaited to its end, and only then
    [process.exit(1)]. *)
Theorem failure_sound_from_raw_args {W} (E : Env W) (args : js_object) (w : W) (e : error) :
  flagsSchema_parse E args = inl e ->
  raw_flag args "sound" = true ->
  events E args w =
    [ EvLog args;
      EvCatch e;
      EvTrack (Some "unknown") "cmd.run.error" [];
      EvCall (playSound_ failure);
      EvExec (Notifier.command (path_join E) (dirname E) (platform E) failure);
      EvSettled (playSound_ failure);
      EvProcessExit 1 ] /\
  exit_status E args w = Some 1%Z.
Proof.
  intros Hparse Hsound. simpl in Hsound. unfold_run. rewrite Hparse.
  cbv beta iota zeta. rewrite Hsound. cbv beta iota zeta.
  rewrite playSound_run. split; reflexivity.
Qed.

(** The string option fails validation and is truthy: the failure sound
    is played all the same. *)
Lemma failure_sound_from_raw_args_witness :
  (flagsSchema_parse calm args_bad_sound = inl "ZodError" /\
   raw_flag args_bad_sound "sound" = true) /\
  events calm args_bad_sound tt =
    [ EvLog args_bad_sound;
      EvCatch "ZodError";
      EvTrack (Some "unknown") "cmd.run.error" [];
      EvCall (playSound_ failure);
      EvExec (Notifier.command (path_join calm) (dirname calm) (platform calm) failure);
      EvSettled (playSound_ failure);
      EvProcessExit 1 ] /\
  exit_status calm args_bad_sound tt = Some 1%Z.
Proof.
  split; [split; vm_compute; reflexivity|].
  apply (failure_sound_from_raw_args calm args_bad_sound tt "ZodError").
  - vm_compute. reflexivity.
  - vm_compute. reflexivity.
Defined.

(** ** Watch *)

(** C6, as the code has it. With the rendering helpers returning and the
    phases leaving the flags alone, the watch phase is entered exactly
    when the watch flag is set and plan and execute have returned: the
    summary, two spacers and the optional success sound lie between
    execute and watch, inside the try block. In every run, nothing enters
    the watch phase once the catch clause has been entered. *)
Theorem watch_entered_iff {W} (E : Env W) (args : js_object) (w : W) :
  (ui_returns E -> flags_immutable E ->
     (occurs (is_call watch_) (events E args w) = true <->
        flag E args "watch" = true /\
        occurs (is_settled plan_) (events E args w) = true /\
        occurs (is_settled execute_) (events E args w) = true)) /\
  never_after is_catch (is_call watch_) (events E args w).
Proof.
  split.
  - intros (U1 & U2 & U3 & U4 & U5) (K1 & K2 & K3 & K4).
    run_cases; intuition congruence.
  - rewrite <- never_afterb_spec. run_cases; reflexivity.
Qed.

(** The run on [calm] with both options enters the watch phase. *)
Lemma watch_entered_iff_witness :
  (ui_returns calm /\ flags_immutable calm) /\
  (occurs (is_call watch_) (events calm args_sound_watch tt) = true <->
     flag calm args_sound_watch "watch" = true /\
     occurs (is_settled plan_) (events calm args_sound_watch tt) = true /\
     occurs (is_settled execute_) (events calm args_sound_watch tt) = true) /\
  never_after is_catch (is_call watch_) (events calm args_sound_watch tt).
Proof.
  assert (U : ui_returns calm) by apply sample_host_ui.
  assert (K : flags_immutable calm) by apply sample_host_flags.
  split; [split; [exact U|exact K]|].
  destruct (watch_entered_iff calm args_sound_watch tt) as [Hiff Hnever].
  split; [exact (Hiff U K)|exact Hnever].
Defined.

(** C6, refuted as stated: when rendering the summary fails, the watch
    flag is set and plan and execute have returned, yet the watch phase is
    not entered and the process exits with status 1. *)
Lemma watch_skipped_when_summary_fails :
  flag summary_throws args_sound_watch "watch" = true /\
  occurs (is_settled plan_) (events summary_throws args_sound_watch tt) = true /\
  occurs (is_settled execute_) (events summary_throws args_sound_watch tt) = true /\
  occurs (is_call watch_) (events summary_throws args_sound_watch tt) = false /\
  exit_status summary_throws args_sound_watch tt = Some 1%Z.
Proof.
  vm_compute. repeat split.
Qed.

(** ** The summary *)

(** C9, as the code has it. With the rendering helpers returning, the
    summary is rendered exactly when execute has returned; it has been
    rendered before the success sound is played and before the watch
    phase is entered; a caught failure ends the process with status 1,
    and no summary has been rendered then unless the watch phase had been
    entered. *)
Theorem summary_rendered_iff {W} (E : Env W) (args : js_object) (w : W) :
  ui_returns E ->
  (occurs (is_call renderSummary_) (events E args w) = true <->
     occurs (is_settled execute_) (events E args w) = true) /\
  precedes (is_settled renderSummary_) (is_call (playSound_ success)) (events E args w) /\
  precedes (is_settled renderSummary_) (is_call watch_) (events E args w) /\
  (occurs is_catch (events E args w) = true ->
     exit_status E args w = Some 1%Z /\
     (occurs (is_call watch_) (events E args w) = false ->
      occurs (is_call renderSummary_) (events E args w) = false)).
Proof.
  intros (U1 & U2 & U3 & U4 & U5).
  rewrite <- !precedesb_spec.
  run_cases; intuition congruence.
Qed.

(** The run on [watch_throws]: the failure is caught after the watch
    phase was entered, and the summary had been rendered. *)
Lemma summary_rendered_iff_witness :
  ui_returns watch_throws /\
  (occurs (is_call renderSummary_) (events watch_throws args_watch tt) = true <->
     occurs (is_settled execute_) (events watch_throws args_watch tt) = true) /\
  precedes (is_settled renderSummary_) (is_call (playSound_ success))
    (events watch_throws args_watch tt) /\
  precedes (is_settled renderSummary_) (is_call watch_) (events watch_throws args_watch tt) /\
  (occurs is_catch (events watch_throws args_watch tt) = true ->
     exit_status watch_throws args_watch tt = Some 1%Z /\
     (occurs (is_call watch_) (events watch_throws args_watch tt) = false ->
      occurs (is_call renderSummary_) (events watch_throws args_watch tt) = false)).
Proof.
  assert (U : ui_returns watch_throws) by apply sample_host_ui.
  split; [exact U|].
  apply (summary_rendered_iff watch_throws args_watch tt U).
Defined.

(** C9, refuted as stated: when the watch phase throws, the failure is
    caught and the process exits with status 1 after the summary has
    been rendered. *)
Lemma summary_rendered_before_caught_failure :
  occurs is_catch (events watch_throws args_watch tt) = true /\
  exit_status watch_throws args_watch tt = Some 1%Z /\
  occurs (is_settled renderSummary_) (events watch_throws args_watch tt) = true.
Proof.
  vm_compute. repeat split.
Qed.

(** ** Further properties of the run *)

(** On win32 the command the run executes for the success sound names the
    file 'undefined'. *)
Example win32_run_executes_undefined :
  occurs
    (is_exec ("powershell -c " +:+ dq
       +:+ "try { (New-Object Media.SoundPlayer 'undefined').PlaySync() } catch { Start-Process -FilePath '/cli/build/../assets/success.mp3' -WindowStyle Hidden -Wait }"
       +:+ dq))
    (events calm_win32 args_sound_watch tt) = true.
Proof. vm_compute. reflexivity. Qed.

(** X1. In every run the start event comes before any success event, and
    a run that sends the success event sends no error event. *)
Theorem telemetry_order {W} (E : Env W) (args : js_object) (w : W) :
  precedes (is_track "cmd.run.start") (is_track "cmd.run.success") (events E args w) /\
  (occurs (is_track "cmd.run.success") (events E args w) = true ->
   occurs (is_track "cmd.run.error") (events E args w) = false).
Proof.
  rewrite <- precedesb_spec.
  run_cases; split; congruence.
Qed.

(** X2. While the debug gate stays unconfirmed the run has done nothing
    but log its arguments and call the gate: no phase is invoked and the
    process does not exit. *)
Theorem debug_gate_blocks {W} (E : Env W) (args parsed : js_object) (w : W) :
  flagsSchema_parse E args = inr parsed ->
  (pauseIfDebug E (js_get parsed "debug") w).1 = Pends ->
  events E args w = [EvLog args; EvCall pauseIfDebug_] /\
  exit_status E args w = None.
Proof.
  intros Hparse Hgate. unfold_run. rewrite Hparse. cbv beta iota zeta. cbn [flags].
  destruct (pauseIfDebug E (js_get parsed "debug") w) as [o w'].
  simpl in Hgate. subst o. split; reflexivity.
Qed.

Lemma debug_gate_blocks_witness :
  (flagsSchema_parse held args_debug = inr args_debug /\
   (pauseIfDebug held (js_get args_debug "debug") tt).1 = Pends) /\
  events held args_debug tt = [EvLog args_debug; EvCall pauseIfDebug_] /\
  exit_status held args_debug tt = None.
Proof.
  split; [split; vm_compute; reflexivity|].
  apply (debug_gate_blocks held args_debug args_debug tt).
  - vm_compute. reflexivity.
  - vm_compute. reflexivity.
Defined.


(** X4. Off win32 the command reads only the one candidate there is: on
    linux the compressed-audio player with the raw-audio player behind
    it, on darwin the native player. *)
Theorem unix_commands_in_bounds (path_join : string -> string -> string)
    (dirname : string) (type : sound_type) :
  Notifier.soundFiles path_join dirname type !! 0%nat =
    Some (path_join (path_join dirname "../assets") (sound_type_name type +:+ ".mp3")) /\
  Notifier.command path_join dirname "linux" type =
    "mpg123 -q " +:+ dq
      +:+ path_join (path_join dirname "../assets") (sound_type_name type +:+ ".mp3")
      +:+ dq +:+ " 2>/dev/null || aplay " +:+ dq
      +:+ path_join (path_join dirname "../assets") (sound_type_name type +:+ ".mp3")
      +:+ dq +:+ " 2>/dev/null" /\
  Notifier.command path_join dirname "darwin" type =
    "afplay " +:+ dq
      +:+ path_join (path_join dirname "../assets") (sound_type_name type +:+ ".mp3")
      +:+ dq.
Proof.
  repeat split.
Qed.

(** ** Repeated options, in order *)

Lemma option_value_some (p occurrences : list string) :
  option_value (Some p) occurrences = Some (p ++ occurrences).
Proof.
  revert p. induction occurrences as [|v vs IH]; intros p; simpl.
  - rewrite app_nil_r. reflexivity.
  - unfold option_value in IH. rewrite IH. rewrite <- app_assoc. reflexivity.
Qed.

(** X5. A repeatable option that is not given stays undefined; given once
    or more, its value is the list of its occurrences in the order of the
    command line, after the values it started with, if any. *)
Theorem option_value_in_order (start : option (list string)) (occurrences : list string) :
  option_value start occurrences =
  match start, occurrences with
  | None, [] => None
  | None, _ => Some occurrences
  | Some p, _ => Some (p ++ occurrences)
  end.
Proof.
  destruct start as [p|].
  - apply option_value_some.
  - destruct occurrences as [|v vs]; [reflexivity|].
    change (option_value None (v :: vs)) with (option_value (Some [v]) vs).
    apply option_value_some.
Qed.

(** ** The platforms of the notifier *)

(** X6. On a platform that is none of linux, darwin and win32 the command
    tries the raw-audio player and then the native player of macOS, both
    on the one candidate, with errors discarded. *)
Theorem other_platform_command (path_join : string -> string -> string)
    (dirname platform : string) (type : sound_type) :
  platform <> "linux" -> platform <> "darwin" -> platform <> "win32" ->
  Notifier.command path_join dirname platform type =
    "aplay " +:+ dq
      +:+ path_join (path_join dirname "../assets") (sound_type_name type +:+ ".mp3")
      +:+ dq +:+ " 2>/dev/null || afplay " +:+ dq
      +:+ path_join (path_join dirname "../assets") (sound_type_name type +:+ ".mp3")
      +:+ dq +:+ " 2>/dev/null".
Proof.
  intros Hl Hd Hw. unfold Notifier.command.
  apply String.eqb_neq in Hl, Hd, Hw. rewrite Hl, Hd, Hw. reflexivity.
Qed.

Lemma other_platform_command_witness :
  Notifier.command join_slash "/cli/build" "freebsd" failure =
    "aplay " +:+ dq
      +:+ join_slash (join_slash "/cli/build" "../assets") (sound_type_name failure +:+ ".mp3")
      +:+ dq +:+ " 2>/dev/null || afplay " +:+ dq
      +:+ join_slash (join_slash "/cli/build" "../assets") (sound_type_name failure +:+ ".mp3")
      +:+ dq +:+ " 2>/dev/null".
Proof.
  apply (other_platform_command join_slash "/cli/build" "freebsd" failure);
    intros [=].
Defined.

(** X7. On every platform the command carries, verbatim, the path of the
    asset of its kind: [<kind>.mp3] under the assets directory. *)
Theorem command_names_the_asset (path_join : string -> string -> string)
    (dirname platform : string) (type : sound_type) :
  exists before after,
    Notifier.command path_join dirname platform type =
      before +:+ path_join (path_join dirname "../assets") (sound_type_name type +:+ ".mp3")
             +:+ after.
Proof.
  unfold Notifier.command.
  destruct (String.eqb platform "linux"); [|destruct (String.eqb platform "darwin");
    [|destruct (String.eqb platform "win32")]].
  - exists ("mpg123 -q " +:+ dq). eexists. reflexivity.
  - exists ("afplay " +:+ dq). eexists. reflexivity.
  - exists ("powershell -c " +:+ dq
            +:+ "try { (New-Object Media.SoundPlayer 'undefined').PlaySync() } catch { Start-Process -FilePath '").
    eexists. reflexivity.
  - exists ("aplay " +:+ dq). eexists. reflexivity.
Qed.

(** ** The shape of every run *)

(** X8. The telemetry of a run is one of five sequences: nothing, the
    start event alone, start then success, the error event alone, or
    start then error. *)
Theorem telemetry_sequences {W} (E : Env W) (args : js_object) (w : W) :
  telemetry_names (events E args w) = [] \/
  telemetry_names (events E args w) = ["cmd.run.start"] \/
  telemetry_names (events E args w) = ["cmd.run.start"; "cmd.run.success"] \/
  telemetry_names (events E args w) = ["cmd.run.error"] \/
  telemetry_names (events E args w) = ["cmd.run.start"; "cmd.run.error"].
Proof.
  run_cases; cbn; auto 6.
Qed.

(** X9. No function is called more often than the handler names it: each
    phase, the gate, the summary and each sound at most once in a run,
    the spacer at most six times; and the catch clause is entered at most
    once. *)
Theorem calls_bounded_by_sites {W} (E : Env W) (args : js_object) (w : W) (c : callee) :
  count_events (is_call c) (events E args w) <= call_sites c /\
  count_events is_catch (events E args w) <= 1.
Proof.
  destruct c as [| | | | | | | | | |[]|]; run_cases; split; cbn; lia.
Qed.

(** X10. A step starts only when the one before it has returned: setup
    after the debug gate, the resolution of the authId after setup, the
    start event after the resolution, plan after the start event, execute
    after plan, the summary after execute. *)
Theorem steps_in_order {W} (E : Env W) (args : js_object) (w : W) :
  precedes (is_settled pauseIfDebug_) (is_call setup_) (events E args w) /\
  precedes (is_settled setup_) (is_call determineAuthId_) (events E args w) /\
  precedes (is_settled determineAuthId_) (is_track "cmd.run.start") (events E args w) /\
  precedes (is_track "cmd.run.start") (is_call plan_) (events E args w) /\
  precedes (is_settled plan_) (is_call execute_) (events E args w) /\
  precedes (is_settled execute_) (is_call renderSummary_) (events E args w).
Proof.
  rewrite <- !precedesb_spec.
  run_cases; repeat split.
Qed.

(** X11. Every call of [playSound] runs one command and comes back: in a
    run, each kind of sound is settled as often as it is called, and the
    commands executed are as many as the sounds called. *)
Theorem playSound_always_comes_back {W} (E : Env W) (args : js_object) (w : W) :
  count_events (is_settled (playSound_ success)) (events E args w) =
    count_events (is_call (playSound_ success)) (events E args w) /\
  count_events (is_settled (playSound_ failure)) (events E args w) =
    count_events (is_call (playSound_ failure)) (events E args w) /\
  count_events is_spawn (events E args w) =
    count_events (is_call (playSound_ success)) (events E args w) +
    count_events (is_call (playSound_ failure)) (events E args w).
Proof.
  run_cases; repeat split.
Qed.

(** X12. Both sounds are played in one run only when the watch phase was
    entered and did not return: the success sound first, the failure
    sound in the catch clause. *)
Theorem both_sounds_only_when_watch_fails {W} (E : Env W) (args : js_object) (w : W) :
  occurs (is_call (playSound_ success)) (events E args w) = true ->
  occurs (is_call (playSound_ failure)) (events E args w) = true ->
  occurs (is_call watch_) (events E args w) = true /\
  occurs (is_settled watch_) (events E args w) = false /\
  precedes (is_call (playSound_ success)) (is_call (playSound_ failure)) (events E args w).
Proof.
  rewrite <- precedesb_spec.
  run_cases; intuition congruence.
Qed.

Lemma both_sounds_only_when_watch_fails_witness :
  (occurs (is_call (playSound_ success)) (events watch_throws args_sound_watch tt) = true /\
   occurs (is_call (playSound_ failure)) (events watch_throws args_sound_watch tt) = true) /\
  occurs (is_call watch_) (events watch_throws args_sound_watch tt) = true /\
  occurs (is_settled watch_) (events watch_throws args_sound_watch tt) = false /\
  precedes (is_call (playSound_ success)) (is_call (playSound_ failure))
    (events watch_throws args_sound_watch tt).
Proof.
  split; [split; vm_compute; reflexivity|].
  apply (both_sounds_only_when_watch_fails watch_throws args_sound_watch tt);
    vm_compute; reflexivity.
Defined.

(** X13. Without the sound option no command is ever executed and
    [playSound] is never called, whichever way the run goes (the phases
    leaving the flags alone, the schema handing [sound] through). *)
Theorem no_command_without_sound {W} (E : Env W) (args : js_object) (w : W) :
  flags_immutable E -> schema_keeps E "sound" ->
  raw_flag args "sound" = false ->
  count_events is_spawn (events E args w) = 0 /\
  occurs (is_call (playSound_ success)) (events E args w) = false /\
  occurs (is_call (playSound_ failure)) (events E args w) = false.
Proof.
  intros (K1 & K2 & K3 & K4) S.
  run_cases; intuition congruence.
Qed.

Lemma no_command_without_sound_witness :
  (flags_immutable watch_throws /\ schema_keeps watch_throws "sound" /\
   raw_flag args_watch "sound" = false) /\
  count_events is_spawn (events watch_throws args_watch tt) = 0 /\
  occurs (is_call (playSound_ success)) (events watch_throws args_watch tt) = false /\
  occurs (is_call (playSound_ failure)) (events watch_throws args_watch tt) = false.
Proof.
  assert (K : flags_immutable watch_throws) by apply sample_host_flags.
  assert (S : schema_keeps watch_throws "sound") by apply sample_host_schema.
  assert (R : raw_flag args_watch "sound" = false) by (vm_compute; reflexivity).
  split; [split; [exact K|split; [exact S|exact R]]|].
  apply (no_command_without_sound watch_throws args_watch tt K S R).
Defined.

(** A collaborator that is known to fulfil did not end otherwise. *)
Ltac cannot_fail :=
  match goal with
  | Hx : ?f ?c ?w = (?o, _), Hc : forall c w, exists r, (_ c w).1 = Fulfils r |- _ =>
      lazymatch o with Fulfils _ => fail | _ => idtac end;
      let r := fresh "r" in let Hr := fresh "Hr" in
      destruct (Hc c w) as [r Hr]; rewrite Hx in Hr; discriminate Hr
  | Hx : ?f ?c ?w = (?o, _), Hc : forall v w, (_ v w).1 = Fulfils tt |- _ =>
      lazymatch o with Fulfils _ => fail | _ => idtac end;
      let Hr := fresh "Hr" in
      pose proof (Hc c w) as Hr; rewrite Hx in Hr; discriminate Hr
  end.

(** X14. On a host where the flags validate and nothing fails or hangs,
    the run renders the summary, sends the start and the success event
    and nothing else, never enters the catch clause, and exits with
    status 0. *)
Theorem cooperative_run_succeeds {W} (E : Env W) (args parsed : js_object) (w : W) :
  flagsSchema_parse E args = inr parsed ->
  cooperative E ->
  exit_status E args w = Some 0%Z /\
  telemetry_names (events E args w) = ["cmd.run.start"; "cmd.run.success"] /\
  occurs (is_settled renderSummary_) (events E args w) = true /\
  occurs is_catch (events E args w) = false.
Proof.
  intros Hparse (G & (U1 & U2 & U3 & U4 & U5) & P1 & P2 & P3 & P4 & P5).
  unfold_run. rewrite Hparse. cbv beta iota zeta.
  repeat case_call; cbn [flags] in *; simpl;
    first [ cannot_fail | repeat split ].
Qed.

Lemma cooperative_run_succeeds_witness :
  (flagsSchema_parse calm args_sound_watch = inr args_sound_watch /\ cooperative calm) /\
  exit_status calm args_sound_watch tt = Some 0%Z /\
  telemetry_names (events calm args_sound_watch tt) = ["cmd.run.start"; "cmd.run.success"] /\
  occurs (is_settled renderSummary_) (events calm args_sound_watch tt) = true /\
  occurs is_catch (events calm args_sound_watch tt) = false.
Proof.
  assert (P : flagsSchema_parse calm args_sound_watch = inr args_sound_watch)
    by (vm_compute; reflexivity).
  assert (C : cooperative calm).
  { split; [intros v []; reflexivity|]. split; [apply sample_host_ui|].
    repeat split; intros c []; eexists; reflexivity. }
  split; [split; [exact P|exact C]|].
  apply (cooperative_run_succeeds calm args_sound_watch args_sound_watch tt P C).
Defined.

(** X15. Whatever a run does next, it starts by logging the raw
    arguments, before they are validated, and logs them once. *)
Theorem args_logged_first {W} (E : Env W) (args : js_object) (w : W) :
  exists rest, events E args w = EvLog args :: rest /\ occurs is_log rest = false.
Proof.
  run_cases; eexists; split; reflexivity.
Qed.

(** X16. Every failure is handled in the same order: the catch clause is
    entered, the error event is sent, the failure sound, if any, is
    played to its end, and [process.exit] comes last; once the clause is
    entered the event is sent and the process exits with status 1. *)
Theorem catch_clause_in_order {W} (E : Env W) (args : js_object) (w : W) :
  precedes is_catch (is_track "cmd.run.error") (events E args w) /\
  precedes (is_track "cmd.run.error") (is_call (playSound_ failure)) (events E args w) /\
  precedes (is_track "cmd.run.error") is_process_exit (events E args w) /\
  never_after (is_call (playSound_ failure)) (is_track "cmd.run.error") (events E args w) /\
  never_after is_process_exit any_event (events E args w) /\
  (occurs is_catch (events E args w) = true ->
     occurs (is_track "cmd.run.error") (events E args w) = true /\
     occurs is_process_exit (events E args w) = true /\
     exit_status E args w = Some 1%Z).
Proof.
  rewrite <- !precedesb_spec, <- !never_afterb_spec.
  run_cases; intuition congruence.
Qed.
